(** * Expression AST of the Swift front end (include/swift/AST/Expr.h)

    A shallow embedding of the [Expr] class hierarchy: the kind
    enumeration, the base class, the eight concrete classes with their
    constructors and [classof] predicates, and the memory the
    constructors read ([SequenceExpr] dereferences its last element). *)

From Stdlib Require Import ZArith.
From stdpp Require Import gmap strings list.

Local Open Scope Z_scope.

(** ** Handles

    Every pointer of the header is an address.  [Type *], [NamedDecl *]
    and [llvm::SMLoc] are never dereferenced by this header; [Expr *] and
    the array pointers are. *)

Abbreviation TypePtr := Z (only parsing).
Abbreviation NamedDeclPtr := Z (only parsing).
Abbreviation ExprPtr := Z (only parsing).
Abbreviation SMLoc := Z (only parsing).

Definition NULL : Z := 0.

(** [unsigned] is a 32-bit integer; arithmetic on it wraps around. *)
Definition UINT_WIDTH : Z := 32.
Definition UINT_MODULUS : Z := 2 ^ UINT_WIDTH.

Definition unsigned_sub (a b : Z) : Z := (a - b) mod UINT_MODULUS.

(** ** enum ExprKind *)

Inductive ExprKind : Type :=
  | IntegerLiteralKind
  | DeclRefExprKind
  | TupleExprKind
  | ApplyExprKind
  | SequenceExprKind
  | BraceExprKind
  | ClosureExprKind
  | BinaryExprKind.

(** The enumerators in declaration order, and the integer each one
    denotes. *)
Definition all_kinds : list ExprKind :=
  [ IntegerLiteralKind; DeclRefExprKind; TupleExprKind; ApplyExprKind;
    SequenceExprKind; BraceExprKind; ClosureExprKind; BinaryExprKind ].

Definition enumerator (k : ExprKind) : Z :=
  match k with
  | IntegerLiteralKind => 0
  | DeclRefExprKind => 1
  | TupleExprKind => 2
  | ApplyExprKind => 3
  | SequenceExprKind => 4
  | BraceExprKind => 5
  | ClosureExprKind => 6
  | BinaryExprKind => 7
  end.

(** [a == b] on two enumeration values. *)
Definition kind_eqb (a b : ExprKind) : bool := enumerator a =? enumerator b.

#[global] Instance ExprKind_eq_dec : EqDecision ExprKind.
Proof. solve_decision. Defined.

(** ** class Expr

    The base sub-object: [const ExprKind Kind] and [Type *Ty], set by
    [Expr(ExprKind kind, Type *ty)]. *)

Record Expr : Type := mkExpr { Kind : ExprKind; Ty : TypePtr }.

Module ExprBase.
Definition ctor (kind : ExprKind) (ty : TypePtr) : Expr :=
  {| Kind := kind; Ty := ty |}.

(** [static bool classof(const Expr * ) { return true; }] *)
Definition classof (E : Expr) : bool := true.
End ExprBase.

(** An element of a [BraceExpr]: [llvm::PointerUnion<Expr*, NamedDecl*>]. *)
Inductive PointerUnion : Type :=
  | PU_Expr (e : ExprPtr)
  | PU_Decl (d : NamedDeclPtr).

(** ** The derived classes

    Each module holds the fields the class adds to [Expr]. *)

Module IntegerLiteral.
Record fields : Type := mk { Val : string; Loc : SMLoc }.
Definition classof_self (x : fields) : bool := true.
Definition classof (E : Expr) : bool := kind_eqb (Kind E) IntegerLiteralKind.
End IntegerLiteral.

Module DeclRefExpr.
Record fields : Type := mk { D : NamedDeclPtr; Loc : SMLoc }.
Definition classof_self (x : fields) : bool := true.
Definition classof (E : Expr) : bool := kind_eqb (Kind E) DeclRefExprKind.
End DeclRefExpr.

Module TupleExpr.
Record fields : Type := mk {
  LParenLoc : SMLoc;
  SubExprs : Z;          (* Expr **SubExprs *)
  NumSubExprs : Z;       (* unsigned *)
  RParenLoc : SMLoc
}.
Definition classof_self (x : fields) : bool := true.
Definition classof (E : Expr) : bool := kind_eqb (Kind E) TupleExprKind.
End TupleExpr.

Module ApplyExpr.
Record fields : Type := mk { Fn : ExprPtr; Arg : ExprPtr }.
Definition classof_self (x : fields) : bool := true.
Definition classof (E : Expr) : bool := kind_eqb (Kind E) ApplyExprKind.
End ApplyExpr.

Module SequenceExpr.
Record fields : Type := mk {
  Elements : Z;          (* Expr **Elements *)
  NumElements : Z        (* unsigned *)
}.
Definition classof_self (x : fields) : bool := true.
Definition classof (E : Expr) : bool := kind_eqb (Kind E) SequenceExprKind.
End SequenceExpr.

Module BraceExpr.
Record fields : Type := mk {
  LBLoc : SMLoc;
  Elements : Z;          (* llvm::PointerUnion<Expr*, NamedDecl*> *Elements *)
  NumElements : Z;       (* unsigned *)
  MissingSemi : bool;
  RBLoc : SMLoc
}.
Definition classof_self (x : fields) : bool := true.
Definition classof (E : Expr) : bool := kind_eqb (Kind E) BraceExprKind.
End BraceExpr.

Module ClosureExpr.
Record fields : Type := mk { Input : ExprPtr }.
Definition classof_self (x : fields) : bool := true.
Definition classof (E : Expr) : bool := kind_eqb (Kind E) ClosureExprKind.
End ClosureExpr.

Module BinaryExpr.
Record fields : Type := mk {
  LHS : ExprPtr;
  Fn : NamedDeclPtr;
  OpLoc : SMLoc;
  RHS : ExprPtr
}.
Definition classof_self (x : fields) : bool := true.
Definition classof (E : Expr) : bool := kind_eqb (Kind E) BinaryExprKind.
End BinaryExpr.

(** ** Objects and memory

    A complete object is the [Expr] sub-object followed by the fields of
    its class. *)

Inductive Derived : Type :=
  | IsIntegerLiteral (f : IntegerLiteral.fields)
  | IsDeclRefExpr (f : DeclRefExpr.fields)
  | IsTupleExpr (f : TupleExpr.fields)
  | IsApplyExpr (f : ApplyExpr.fields)
  | IsSequenceExpr (f : SequenceExpr.fields)
  | IsBraceExpr (f : BraceExpr.fields)
  | IsClosureExpr (f : ClosureExpr.fields)
  | IsBinaryExpr (f : BinaryExpr.fields).

Record Node : Type := mkNode { base : Expr; derived : Derived }.

(** The class an object was built as. *)
Definition dynamic_class (n : Node) : ExprKind :=
  match derived n with
  | IsIntegerLiteral _ => IntegerLiteralKind
  | IsDeclRefExpr _ => DeclRefExprKind
  | IsTupleExpr _ => TupleExprKind
  | IsApplyExpr _ => ApplyExprKind
  | IsSequenceExpr _ => SequenceExprKind
  | IsBraceExpr _ => BraceExprKind
  | IsClosureExpr _ => ClosureExprKind
  | IsBinaryExpr _ => BinaryExprKind
  end.

(** Memory: the expression objects by address, the cells of the
    [Expr *] arrays and the cells of the [PointerUnion] arrays.  Array
    cells are addressed in units of one element, so [a[i]] is the cell
    [a + i].  A cell or object that is not there is [None]. *)
Record Memory : Type := mkMemory {
  nodes : gmap Z Node;
  exprCells : Z -> option Z;
  unionCells : Z -> option PointerUnion
}.

Definition empty_memory : Memory :=
  {| nodes := ∅; exprCells := fun _ => None; unionCells := fun _ => None |}.

(** [p->Ty] *)
Definition deref_Ty (M : Memory) (p : Z) : option Z :=
  n ← nodes M !! p; Some (Ty (base n)).

(** ** Constructors *)

Definition IntegerLiteral_ctor (V : string) (L : SMLoc) (ty : TypePtr) : Node :=
  {| base := ExprBase.ctor IntegerLiteralKind ty;
     derived := IsIntegerLiteral {| IntegerLiteral.Val := V; IntegerLiteral.Loc := L |} |}.

Definition DeclRefExpr_ctor (d : NamedDeclPtr) (L : SMLoc) (ty : TypePtr) : Node :=
  {| base := ExprBase.ctor DeclRefExprKind ty;
     derived := IsDeclRefExpr {| DeclRefExpr.D := d; DeclRefExpr.Loc := L |} |}.

Definition TupleExpr_ctor (lparenloc : SMLoc) (subexprs : Z) (numsubexprs : Z)
    (rparenloc : SMLoc) (ty : TypePtr) : Node :=
  {| base := ExprBase.ctor TupleExprKind ty;
     derived := IsTupleExpr
       {| TupleExpr.LParenLoc := lparenloc; TupleExpr.SubExprs := subexprs;
          TupleExpr.NumSubExprs := numsubexprs; TupleExpr.RParenLoc := rparenloc |} |}.

Definition ApplyExpr_ctor (fn arg : ExprPtr) (ty : TypePtr) : Node :=
  {| base := ExprBase.ctor ApplyExprKind ty;
     derived := IsApplyExpr {| ApplyExpr.Fn := fn; ApplyExpr.Arg := arg |} |}.

(** [Expr(SequenceExprKind, elements[numElements-1]->Ty)]: the index is
    computed on [unsigned]; the two loads are the only place where a
    constructor of this header reads memory. *)
Definition SequenceExpr_ctor (M : Memory) (elements : Z) (numElements : Z)
    : option Node :=
  p ← exprCells M (elements + unsigned_sub numElements 1);
  ty ← deref_Ty M p;
  Some {| base := ExprBase.ctor SequenceExprKind ty;
          derived := IsSequenceExpr
            {| SequenceExpr.Elements := elements;
               SequenceExpr.NumElements := numElements |} |}.

Definition BraceExpr_ctor (lbloc : SMLoc) (elements : Z) (numelements : Z)
    (missingsemi : bool) (rbloc : SMLoc) (ty : TypePtr) : Node :=
  {| base := ExprBase.ctor BraceExprKind ty;
     derived := IsBraceExpr
       {| BraceExpr.LBLoc := lbloc; BraceExpr.Elements := elements;
          BraceExpr.NumElements := numelements;
          BraceExpr.MissingSemi := missingsemi; BraceExpr.RBLoc := rbloc |} |}.

Definition ClosureExpr_ctor (input : ExprPtr) (ResultTy : TypePtr) : Node :=
  {| base := ExprBase.ctor ClosureExprKind ResultTy;
     derived := IsClosureExpr {| ClosureExpr.Input := input |} |}.

Definition BinaryExpr_ctor (lhs : ExprPtr) (fn : NamedDeclPtr) (oploc : SMLoc)
    (rhs : ExprPtr) (ty : TypePtr) : Node :=
  {| base := ExprBase.ctor BinaryExprKind ty;
     derived := IsBinaryExpr
       {| BinaryExpr.LHS := lhs; BinaryExpr.Fn := fn;
          BinaryExpr.OpLoc := oploc; BinaryExpr.RHS := rhs |} |}.

(** ** Checked dispatch *)

(** The [classof(const Expr * )] predicate of the class whose tag is [T]. *)
Definition classof (T : ExprKind) (E : Expr) : bool :=
  match T with
  | IntegerLiteralKind => IntegerLiteral.classof E
  | DeclRefExprKind => DeclRefExpr.classof E
  | TupleExprKind => TupleExpr.classof E
  | ApplyExprKind => ApplyExpr.classof E
  | SequenceExprKind => SequenceExpr.classof E
  | BraceExprKind => BraceExpr.classof E
  | ClosureExprKind => ClosureExpr.classof E
  | BinaryExprKind => BinaryExpr.classof E
  end.

(** Modelled from the spec: [isVariant<T>(node)], the isa template the
    header prepares for ("Implement isa/cast/dyncast/etc.") and does not
    contain; it asks the class [T] through its [classof]. *)
Definition isVariant (T : ExprKind) (n : Node) : bool := classof T (base n).

(** Modelled from the spec: [tryCast<T>(node)], the dyn_cast template,
    absent from the sources; "total, returns absent when the kind does
    not match", and the node itself when the variant test holds. *)
Definition tryCast (T : ExprKind) (n : Node) : option Node :=
  if isVariant T n then Some n else None.

(** Modelled from the spec: the "handlers for all eight kinds" of the
    visit operation, which is absent from the sources. *)
Record Handlers (R : Type) : Type := mkHandlers {
  onIntegerLiteral : Node -> R;
  onDeclRefExpr : Node -> R;
  onTupleExpr : Node -> R;
  onApplyExpr : Node -> R;
  onSequenceExpr : Node -> R;
  onBraceExpr : Node -> R;
  onClosureExpr : Node -> R;
  onBinaryExpr : Node -> R
}.
Arguments onIntegerLiteral {R}.
Arguments onDeclRefExpr {R}.
Arguments onTupleExpr {R}.
Arguments onApplyExpr {R}.
Arguments onSequenceExpr {R}.
Arguments onBraceExpr {R}.
Arguments onClosureExpr {R}.
Arguments onBinaryExpr {R}.

(** Modelled from the spec: the handler a visit holds for the variant
    [T]. *)
Definition handler {R : Type} (H : Handlers R) (T : ExprKind) : Node -> R :=
  match T with
  | IntegerLiteralKind => onIntegerLiteral H
  | DeclRefExprKind => onDeclRefExpr H
  | TupleExprKind => onTupleExpr H
  | ApplyExprKind => onApplyExpr H
  | SequenceExprKind => onSequenceExpr H
  | BraceExprKind => onBraceExpr H
  | ClosureExprKind => onClosureExpr H
  | BinaryExprKind => onBinaryExpr H
  end.

(** Modelled from the spec: the variants whose predicate holds of [n],
    in enumeration order, that is, the handlers a visit of [n] has to
    choose from. *)
Definition matching_variants (n : Node) : list ExprKind :=
  filter (fun T => isVariant T n = true) all_kinds.

(** Modelled from the spec: the visit, absent from the sources, as a
    chain of variant tests over [Ts] that runs the handler of the first
    variant that matches; [None] is falling through unmatched. *)
Fixpoint visit_from {R : Type} (H : Handlers R) (Ts : list ExprKind) (n : Node)
    : option R :=
  match Ts with
  | [] => None
  | T :: Ts' => if isVariant T n then Some (handler H T n) else visit_from H Ts' n
  end.

(** Modelled from the spec: the exhaustive visit "dispatches on the
    tag" over the eight kinds of the enumeration. *)
Definition visit {R : Type} (H : Handlers R) (n : Node) : option R :=
  visit_from H all_kinds n.

(** ** Operations on memory

    What a client of the header can do to the objects: build one of the
    eight classes in storage obtained from the [ASTContext], assign the
    public field [Ty], fill array cells, and call the [const] members
    ([classof], [getLocStart], [print], [dump]), which leave memory as it
    is.  [Kind] is [const]: there is no assignment to it. *)

Inductive CtorCall : Type :=
  | NewIntegerLiteral (V : string) (L : SMLoc) (ty : TypePtr)
  | NewDeclRefExpr (d : NamedDeclPtr) (L : SMLoc) (ty : TypePtr)
  | NewTupleExpr (lparenloc : SMLoc) (subexprs numsubexprs : Z)
      (rparenloc : SMLoc) (ty : TypePtr)
  | NewApplyExpr (fn arg : ExprPtr) (ty : TypePtr)
  | NewSequenceExpr (elements numElements : Z)
  | NewBraceExpr (lbloc : SMLoc) (elements numelements : Z)
      (missingsemi : bool) (rbloc : SMLoc) (ty : TypePtr)
  | NewClosureExpr (input : ExprPtr) (ResultTy : TypePtr)
  | NewBinaryExpr (lhs : ExprPtr) (fn : NamedDeclPtr) (oploc : SMLoc)
      (rhs : ExprPtr) (ty : TypePtr).

(** The class named by a constructor call. *)
Definition class_of_call (c : CtorCall) : ExprKind :=
  match c with
  | NewIntegerLiteral _ _ _ => IntegerLiteralKind
  | NewDeclRefExpr _ _ _ => DeclRefExprKind
  | NewTupleExpr _ _ _ _ _ => TupleExprKind
  | NewApplyExpr _ _ _ => ApplyExprKind
  | NewSequenceExpr _ _ => SequenceExprKind
  | NewBraceExpr _ _ _ _ _ _ => BraceExprKind
  | NewClosureExpr _ _ => ClosureExprKind
  | NewBinaryExpr _ _ _ _ _ => BinaryExprKind
  end.

Definition construct (M : Memory) (c : CtorCall) : option Node :=
  match c with
  | NewIntegerLiteral V L ty => Some (IntegerLiteral_ctor V L ty)
  | NewDeclRefExpr d L ty => Some (DeclRefExpr_ctor d L ty)
  | NewTupleExpr l s n r ty => Some (TupleExpr_ctor l s n r ty)
  | NewApplyExpr fn arg ty => Some (ApplyExpr_ctor fn arg ty)
  | NewSequenceExpr els n => SequenceExpr_ctor M els n
  | NewBraceExpr l els n ms r ty => Some (BraceExpr_ctor l els n ms r ty)
  | NewClosureExpr input ty => Some (ClosureExpr_ctor input ty)
  | NewBinaryExpr lhs fn oploc rhs ty => Some (BinaryExpr_ctor lhs fn oploc rhs ty)
  end.

Definition set_Ty (ty : TypePtr) (n : Node) : Node :=
  {| base := {| Kind := Kind (base n); Ty := ty |}; derived := derived n |}.

Inductive Op : Type :=
  | OpNew (p : ExprPtr) (c : CtorCall)        (* new (C) T(...) placed at p *)
  | OpAssignTy (p : ExprPtr) (ty : TypePtr)   (* p->Ty = ty *)
  | OpStoreExpr (a : Z) (v : ExprPtr)         (* an Expr* array cell *)
  | OpStoreUnion (a : Z) (v : PointerUnion)   (* a PointerUnion array cell *)
  | OpConstMember (p : ExprPtr).              (* classof, getLocStart, print, dump *)

(** Modelled from the spec: [operator new(size_t, ASTContext &, unsigned)]
    is declared by the header and defined elsewhere; the arena "never
    reuses or frees individual blocks", so the storage it hands out is a
    non-null address holding no object. *)
Definition arena_fresh (M : Memory) (p : ExprPtr) : bool :=
  negb (p =? NULL) && bool_decide (nodes M !! p = None).

(** [None]: the operation touches an object or a cell that is not there. *)
Definition exec (M : Memory) (o : Op) : option Memory :=
  match o with
  | OpNew p c =>
      if arena_fresh M p then
        n ← construct M c;
        Some {| nodes := <[p := n]> (nodes M);
                exprCells := exprCells M; unionCells := unionCells M |}
      else None
  | OpAssignTy p ty =>
      n ← nodes M !! p;
      Some {| nodes := <[p := set_Ty ty n]> (nodes M);
              exprCells := exprCells M; unionCells := unionCells M |}
  | OpStoreExpr a v =>
      Some {| nodes := nodes M;
              exprCells := fun b => if b =? a then Some v else exprCells M b;
              unionCells := unionCells M |}
  | OpStoreUnion a v =>
      Some {| nodes := nodes M; exprCells := exprCells M;
              unionCells := fun b => if b =? a then Some v else unionCells M b |}
  | OpConstMember p => _ ← nodes M !! p; Some M
  end.

Fixpoint run (M : Memory) (ops : list Op) : option Memory :=
  match ops with
  | [] => Some M
  | o :: ops' => M' ← exec M o; run M' ops'
  end.

(** ** Reading the element arrays *)

(** The [n] consecutive [Expr *] cells from [a] on. *)
Fixpoint load_array (M : Memory) (a : Z) (n : nat) : option (list Z) :=
  match n with
  | O => Some []
  | S k => p ← exprCells M a; ps ← load_array M (a + 1) k; Some (p :: ps)
  end.

(** The sub-expression of a one-element [TupleExpr]: [SubExprs[0]]. *)
Definition sole_subexpr (M : Memory) (t : Node) : option Node :=
  match derived t with
  | IsTupleExpr f =>
      if TupleExpr.NumSubExprs f =? 1
      then p ← exprCells M (TupleExpr.SubExprs f + 0); nodes M !! p
      else None
  | _ => None
  end.

(** The last element of a [BraceExpr] when it is the expression case of
    the union: [Elements[NumElements-1]]. *)
Definition last_brace_expr (M : Memory) (b : Node) : option Node :=
  match derived b with
  | IsBraceExpr f =>
      u ← unionCells M (BraceExpr.Elements f + unsigned_sub (BraceExpr.NumElements f) 1);
      match u with
      | PU_Expr p => nodes M !! p
      | PU_Decl _ => None
      end
  | _ => None
  end.

(** The spec's trailing-semicolon flag is the negation of the stored
    [MissingSemi] ("true if the last expression in the brace expression
    is missing a semicolon after it"). *)
Definition trailing_semicolon (b : Node) : option bool :=
  match derived b with
  | IsBraceExpr f => Some (negb (BraceExpr.MissingSemi f))
  | _ => None
  end.

(** ** Sample memories *)

(** [foo() bar()] and [(4)]: two literals at 16 and 32, an array of
    both at 64..65, an array of the first alone at 80, and the brace
    elements [4; 5] at 96..97. *)
Definition sample_memory : Memory :=
  {| nodes := {[ 16 := IntegerLiteral_ctor "4" 1 100;
                 32 := IntegerLiteral_ctor "5" 3 200 ]};
     exprCells := fun a =>
       if a =? 64 then Some 16 else
       if a =? 65 then Some 32 else
       if a =? 80 then Some 16 else None;
     unionCells := fun a =>
       if a =? 96 then Some (PU_Expr 16) else
       if a =? 97 then Some (PU_Expr 32) else None |}.

(** An array of [2^32] pointers at 4096, every cell pointing to the
    literal at 16. *)
Definition huge_array_memory : Memory :=
  {| nodes := {[ 16 := IntegerLiteral_ctor "4" 1 100 ]};
     exprCells := fun a =>
       if (4096 <=? a) && (a <? 4096 + UINT_MODULUS) then Some 16 else None;
     unionCells := fun _ => None |}.

(** ** Tagged objects *)


(** The position of a tag in the declaration order of the enumeration. *)
Definition kind_at (z : Z) : option ExprKind :=
  if z <? 0 then None else all_kinds !! Z.to_nat z.

(** * Properties *)

(** ** Helper lemmas *)

Lemma kind_eqb_eq (a b : ExprKind) : kind_eqb a b = true ↔ a = b.
Proof.
  unfold kind_eqb. rewrite Z.eqb_eq. split; [| by intros ->].
  destruct a, b; simpl; intros H; first [reflexivity | discriminate H].
Qed.

Lemma classof_Kind (T : ExprKind) (E : Expr) : classof T E = true ↔ Kind E = T.
Proof. destruct T; simpl; apply kind_eqb_eq. Qed.

Lemma unsigned_sub_zero : unsigned_sub 0 1 = 4294967295.
Proof. reflexivity. Qed.

Lemma unsigned_sub_pos (n : Z) : 1 <= n < UINT_MODULUS → unsigned_sub n 1 = n - 1.
Proof. intros Hn. unfold unsigned_sub. apply Z.mod_small. lia. Qed.

Lemma load_array_length (M : Memory) (n : nat) :
  ∀ (a : Z) (ps : list Z), load_array M a n = Some ps → length ps = n.
Proof.
  induction n as [| k IH]; intros a ps H; simpl in H.
  - by inversion H.
  - destruct (exprCells M a) as [p |]; [| discriminate]. simpl in H.
    destruct (load_array M (a + 1) k) as [qs |] eqn:Hk; [| discriminate].
    simpl in H. inversion H; subst. simpl. f_equal. eauto.
Qed.

Lemma load_array_lookup (M : Memory) (n : nat) :
  ∀ (a : Z) (ps : list Z) (i : nat) (p : Z),
    load_array M a n = Some ps → ps !! i = Some p →
    exprCells M (a + Z.of_nat i) = Some p.
Proof.
  induction n as [| k IH]; intros a ps i p H Hi; simpl in H.
  - inversion H; subst. by rewrite lookup_nil in Hi.
  - destruct (exprCells M a) as [q |] eqn:Hq; [| discriminate]. simpl in H.
    destruct (load_array M (a + 1) k) as [qs |] eqn:Hk; [| discriminate].
    simpl in H. inversion H; subst. destruct i as [| j]; simpl in Hi.
    + inversion Hi; subst. by rewrite Z.add_0_r.
    + replace (a + Z.of_nat (S j)) with (a + 1 + Z.of_nat j) by lia. eauto.
Qed.

(** The constructor of [SequenceExpr] produces a node exactly when its
    two loads succeed; nothing else is tested. *)
Lemma SequenceExpr_ctor_Some (M : Memory) (elements numElements : Z) (s : Node) :
  SequenceExpr_ctor M elements numElements = Some s ↔
  ∃ (p : Z) (e : Node),
    exprCells M (elements + unsigned_sub numElements 1) = Some p ∧
    nodes M !! p = Some e ∧
    s = {| base := {| Kind := SequenceExprKind; Ty := Ty (base e) |};
           derived := IsSequenceExpr
             {| SequenceExpr.Elements := elements;
                SequenceExpr.NumElements := numElements |} |}.
Proof.
  unfold SequenceExpr_ctor, deref_Ty. split.
  - destruct (exprCells M _) as [p |]; [| discriminate]. simpl.
    destruct (nodes M !! p) as [e |] eqn:He; [| discriminate]. simpl.
    intros H. inversion H. by exists p, e.
  - intros (p & e & -> & He & ->). simpl. by rewrite He.
Qed.

Lemma construct_Kind (M : Memory) (c : CtorCall) (n : Node) :
  construct M c = Some n →
  Kind (base n) = class_of_call c ∧ dynamic_class n = class_of_call c.
Proof.
  destruct c; simpl; try (intros H; inversion H; by subst).
  intros (p & e & _ & _ & ->)%SequenceExpr_ctor_Some. done.
Qed.

Lemma exec_preserves_Kind (M M' : Memory) (o : Op) (p : Z) (n : Node) :
  exec M o = Some M' → nodes M !! p = Some n →
  ∃ n', nodes M' !! p = Some n' ∧ Kind (base n') = Kind (base n).
Proof.
  intros Hexec Hp. destruct o as [q c | q ty | a v | a v | q]; simpl in Hexec.
  - destruct (arena_fresh M q) eqn:Hfresh; [| discriminate].
    destruct (construct M c) as [m |]; [| discriminate].
    simpl in Hexec. inversion Hexec; subst; simpl.
    apply andb_true_iff in Hfresh as [_ Hnone].
    apply bool_decide_eq_true in Hnone.
    exists n. split; [| done].
    rewrite lookup_insert_ne; [done | congruence].
  - destruct (nodes M !! q) as [m |] eqn:Hq; [| discriminate].
    simpl in Hexec. inversion Hexec; subst; simpl.
    destruct (decide (q = p)) as [-> | Hne].
    + rewrite lookup_insert_eq. exists (set_Ty ty m). split; [done |].
      simpl. congruence.
    + rewrite lookup_insert_ne; [| done]. by exists n.
  - inversion Hexec; subst; simpl. by exists n.
  - inversion Hexec; subst; simpl. by exists n.
  - destruct (nodes M !! q); [| discriminate]. simpl in Hexec.
    inversion Hexec; subst. by exists n.
Qed.

Lemma run_preserves_Kind (ops : list Op) :
  ∀ (M M' : Memory) (p : Z) (n : Node),
    run M ops = Some M' → nodes M !! p = Some n →
    ∃ n', nodes M' !! p = Some n' ∧ Kind (base n') = Kind (base n).
Proof.
  induction ops as [| o ops IH]; intros M M' p n Hrun Hp; simpl in Hrun.
  - inversion Hrun; subst. by exists n.
  - destruct (exec M o) as [M1 |] eqn:Hexec; [| discriminate]. simpl in Hrun.
    destruct (exec_preserves_Kind _ _ _ _ _ Hexec Hp) as (n1 & Hp1 & Hk1).
    destruct (IH _ _ _ _ Hrun Hp1) as (n' & Hp' & Hk').
    exists n'. split; [done | congruence].
Qed.

(** ** Sequence typing *)

(** C1: a SequenceExpr constructed from a non-empty element sequence
    [e1..en] (the array at [elements] holds [n >= 1] pointers, the last
    one to the node [en]) has the resolved type of [en]. *)
Theorem SequenceExpr_type_is_last_element
    (M : Memory) (elements : Z) (n : nat) (ps : list Z) (pn : Z) (en : Node) :
  (1 ≤ n)%nat → Z.of_nat n < UINT_MODULUS →
  load_array M elements n = Some ps →
  last ps = Some pn →
  nodes M !! pn = Some en →
  ∃ s, SequenceExpr_ctor M elements (Z.of_nat n) = Some s ∧
       Ty (base s) = Ty (base en) ∧
       Kind (base s) = SequenceExprKind.
Proof.
  intros Hn Hmax Hload Hlast Hen.
  pose proof (load_array_length _ _ _ _ Hload) as Hlen.
  rewrite last_lookup, Hlen in Hlast.
  pose proof (load_array_lookup _ _ _ _ _ _ Hload Hlast) as Hcell.
  exists {| base := {| Kind := SequenceExprKind; Ty := Ty (base en) |};
            derived := IsSequenceExpr
              {| SequenceExpr.Elements := elements;
                 SequenceExpr.NumElements := Z.of_nat n |} |}.
  split; [| split; reflexivity].
  apply SequenceExpr_ctor_Some. exists pn, en. split; [| done].
  rewrite unsigned_sub_pos by (unfold UINT_MODULUS in *; lia).
  rewrite <- Hcell. f_equal. lia.
Qed.

Lemma SequenceExpr_type_is_last_element_witness :
  last [16; 32] = Some 32 ∧
  ∃ s, SequenceExpr_ctor sample_memory 64 2 = Some s ∧
       Ty (base s) = 200 ∧ Kind (base s) = SequenceExprKind.
Proof.
  split; [reflexivity |].
  apply (SequenceExpr_type_is_last_element sample_memory 64 2 [16; 32] 32
           (IntegerLiteral_ctor "5" 3 200)).
  - lia.
  - reflexivity.
  - reflexivity.
  - reflexivity.
  - reflexivity.
Defined.

(** C2, as stated, fails: with [numElements = 0] the constructor reads
    [elements[4294967295]]; over an array of [2^32] pointers that cell
    exists, and the node that comes back has zero elements. *)
Lemma SequenceExpr_empty_is_constructed :
  SequenceExpr_ctor huge_array_memory 4096 0 =
  Some {| base := {| Kind := SequenceExprKind; Ty := 100 |};
          derived := IsSequenceExpr
            {| SequenceExpr.Elements := 4096; SequenceExpr.NumElements := 0 |} |}.
Proof. reflexivity. Qed.

(** C2, amended: the constructor of SequenceExpr never tests the element
    count and has no error path.  It produces a node exactly when the
    cell [elements[numElements-1]] (index taken modulo [2^32], so
    [4294967295] for a count of zero) holds a pointer to a node, and the
    node carries the count it was given, zero included. *)
Theorem SequenceExpr_ctor_does_not_check_count
    (M : Memory) (elements numElements : Z) :
  (∀ s, SequenceExpr_ctor M elements numElements = Some s ↔
        ∃ (p : Z) (e : Node),
          exprCells M (elements + unsigned_sub numElements 1) = Some p ∧
          nodes M !! p = Some e ∧
          base s = {| Kind := SequenceExprKind; Ty := Ty (base e) |} ∧
          derived s = IsSequenceExpr
            {| SequenceExpr.Elements := elements;
               SequenceExpr.NumElements := numElements |}) ∧
  (numElements = 0 → unsigned_sub numElements 1 = UINT_MODULUS - 1) ∧
  (∀ (p : Z) (e : Node),
     exprCells M (elements + (UINT_MODULUS - 1)) = Some p →
     nodes M !! p = Some e →
     ∃ s f, SequenceExpr_ctor M elements 0 = Some s ∧
            derived s = IsSequenceExpr f ∧ SequenceExpr.NumElements f = 0).
Proof.
  split; [| split].
  - intros s. rewrite SequenceExpr_ctor_Some. split.
    + intros (p & e & Hp & He & ->). by exists p, e.
    + intros (p & e & Hp & He & Hb & Hd). exists p, e.
      split; [done |]. split; [done |]. destruct s; simpl in *. congruence.
  - by intros ->.
  - intros p e Hp He.
    exists {| base := {| Kind := SequenceExprKind; Ty := Ty (base e) |};
              derived := IsSequenceExpr
                {| SequenceExpr.Elements := elements;
                   SequenceExpr.NumElements := 0 |} |}.
    eexists. split; [| split; reflexivity].
    apply SequenceExpr_ctor_Some. exists p, e. by rewrite unsigned_sub_zero.
Qed.

Lemma SequenceExpr_ctor_does_not_check_count_witness :
  exprCells huge_array_memory (4096 + (UINT_MODULUS - 1)) = Some 16 ∧
  ∃ s f, SequenceExpr_ctor huge_array_memory 4096 0 = Some s ∧
         derived s = IsSequenceExpr f ∧ SequenceExpr.NumElements f = 0.
Proof.
  split; [reflexivity |].
  apply (proj2 (proj2 (SequenceExpr_ctor_does_not_check_count
                         huge_array_memory 4096 0))
           16 (IntegerLiteral_ctor "4" 1 100)).
  - reflexivity.
  - reflexivity.
Defined.

(** ** Null sequences *)

(** C8, as stated, fails: the constructor of TupleExpr accepts a null
    sub-expression array and the node it returns holds the null. *)
Lemma TupleExpr_null_sequence_is_constructed :
  derived (TupleExpr_ctor 10 NULL 0 11 100) =
  IsTupleExpr {| TupleExpr.LParenLoc := 10; TupleExpr.SubExprs := NULL;
                 TupleExpr.NumSubExprs := 0; TupleExpr.RParenLoc := 11 |}.
Proof. reflexivity. Qed.

(** C8, amended: neither constructor compares its sequence pointer with
    null.  TupleExpr's constructor produces a node for every pointer,
    null included, and stores it as given; every node SequenceExpr's
    constructor produces stores the pointer as given, and whether it
    produces one is decided by its read of [elements[numElements-1]]
    alone. *)
Theorem sequence_pointers_are_stored_unchecked :
  (∀ (l s n r ty : Z), ∃ f,
     derived (TupleExpr_ctor l s n r ty) = IsTupleExpr f ∧
     TupleExpr.SubExprs f = s) ∧
  (∀ (M : Memory) (elements numElements : Z) (s : Node),
     SequenceExpr_ctor M elements numElements = Some s →
     ∃ f, derived s = IsSequenceExpr f ∧ SequenceExpr.Elements f = elements) ∧
  (∀ (M : Memory) (elements numElements : Z),
     is_Some (SequenceExpr_ctor M elements numElements) ↔
     ∃ p, exprCells M (elements + unsigned_sub numElements 1) = Some p ∧
          is_Some (nodes M !! p)).
Proof.
  split; [| split].
  - intros l s n r ty. eexists. split; reflexivity.
  - intros M elements numElements s (p & e & _ & _ & ->)%SequenceExpr_ctor_Some.
    eexists. split; reflexivity.
  - intros M elements numElements. split.
    + intros [s (p & e & Hp & He & _)%SequenceExpr_ctor_Some].
      exists p. split; [done |]. by exists e.
    + intros (p & Hp & [e He]). eexists.
      apply SequenceExpr_ctor_Some. by exists p, e.
Qed.

Lemma sequence_pointers_are_stored_unchecked_witness :
  (∃ f, derived (TupleExpr_ctor 10 NULL 0 11 100) = IsTupleExpr f ∧
        TupleExpr.SubExprs f = NULL) ∧
  SequenceExpr_ctor sample_memory 64 2
    = Some {| base := {| Kind := SequenceExprKind; Ty := 200 |};
              derived := IsSequenceExpr
                {| SequenceExpr.Elements := 64;
                   SequenceExpr.NumElements := 2 |} |} ∧
  ∃ f, derived {| base := {| Kind := SequenceExprKind; Ty := 200 |};
                  derived := IsSequenceExpr
                    {| SequenceExpr.Elements := 64;
                       SequenceExpr.NumElements := 2 |} |} = IsSequenceExpr f ∧
       SequenceExpr.Elements f = 64.
Proof.
  split; [| split].
  - exact (proj1 sequence_pointers_are_stored_unchecked 10 NULL 0 11 100).
  - reflexivity.
  - apply (proj1 (proj2 sequence_pointers_are_stored_unchecked)
             sample_memory 64 2).
    reflexivity.
Defined.

(** ** Tuple decay and brace typing *)

(** C3, as stated, fails: the tuple [(4)] built over the literal of type
    100 with the type handle 200 has exactly one sub-expression and a
    resolved type other than that sub-expression's. *)
Lemma TupleExpr_decay_not_enforced :
  sole_subexpr sample_memory (TupleExpr_ctor 10 80 1 11 200)
    = Some (IntegerLiteral_ctor "4" 1 100) ∧
  Ty (base (TupleExpr_ctor 10 80 1 11 200))
    ≠ Ty (base (IntegerLiteral_ctor "4" 1 100)).
Proof. split; [reflexivity | discriminate]. Qed.

(** C3, amended: the resolved type of a TupleExpr with exactly one
    sub-expression [e] is the type handle its caller supplied to the
    constructor; it equals [e]'s resolved type exactly when the caller
    supplied [e]'s type. *)
Theorem TupleExpr_type_is_caller_supplied
    (M : Memory) (l s n r ty : Z) (e : Node) :
  sole_subexpr M (TupleExpr_ctor l s n r ty) = Some e →
  Ty (base (TupleExpr_ctor l s n r ty)) = ty ∧
  (Ty (base (TupleExpr_ctor l s n r ty)) = Ty (base e) ↔ ty = Ty (base e)).
Proof. intros _. simpl. tauto. Qed.

Lemma TupleExpr_type_is_caller_supplied_witness :
  sole_subexpr sample_memory (TupleExpr_ctor 10 80 1 11 100)
    = Some (IntegerLiteral_ctor "4" 1 100) ∧
  Ty (base (TupleExpr_ctor 10 80 1 11 100)) = 100.
Proof.
  split; [reflexivity |].
  refine (proj1 (TupleExpr_type_is_caller_supplied sample_memory 10 80 1 11 100
                   (IntegerLiteral_ctor "4" 1 100) _)).
  reflexivity.
Defined.

(** C4, as stated, fails: the brace [{ 4; 5 }] (no semicolon after the
    last expression, which has type 200) built with the type handle 100
    has a resolved type other than its last element's. *)
Lemma BraceExpr_typing_not_enforced :
  trailing_semicolon (BraceExpr_ctor 20 96 2 true 21 100) = Some false ∧
  last_brace_expr sample_memory (BraceExpr_ctor 20 96 2 true 21 100)
    = Some (IntegerLiteral_ctor "5" 3 200) ∧
  Ty (base (BraceExpr_ctor 20 96 2 true 21 100))
    ≠ Ty (base (IntegerLiteral_ctor "5" 3 200)).
Proof. split; [reflexivity | split; [reflexivity | discriminate]]. Qed.

(** C4, amended: the resolved type of a BraceExpr is the type handle its
    caller supplied to the constructor, whatever the flag.  With a
    trailing semicolon it is the unit type when the caller supplied the
    unit type; without one it is the type of the last element, an
    expression, when the caller supplied that type. *)
Theorem BraceExpr_type_is_caller_supplied
    (M : Memory) (unitType : Z) (l els n : Z) (ms : bool) (r ty : Z) :
  Ty (base (BraceExpr_ctor l els n ms r ty)) = ty ∧
  trailing_semicolon (BraceExpr_ctor l els n ms r ty) = Some (negb ms) ∧
  (trailing_semicolon (BraceExpr_ctor l els n ms r ty) = Some true →
   ty = unitType →
   Ty (base (BraceExpr_ctor l els n ms r ty)) = unitType) ∧
  (∀ e : Node,
     trailing_semicolon (BraceExpr_ctor l els n ms r ty) = Some false →
     last_brace_expr M (BraceExpr_ctor l els n ms r ty) = Some e →
     ty = Ty (base e) →
     Ty (base (BraceExpr_ctor l els n ms r ty)) = Ty (base e)).
Proof.
  split; [reflexivity |]. split; [reflexivity |]. split.
  - intros _ Hty. simpl. exact Hty.
  - intros e _ _ Hty. simpl. exact Hty.
Qed.

Lemma BraceExpr_type_is_caller_supplied_witness :
  last_brace_expr sample_memory (BraceExpr_ctor 20 96 2 true 21 200)
    = Some (IntegerLiteral_ctor "5" 3 200) ∧
  Ty (base (BraceExpr_ctor 20 96 2 true 21 200))
    = Ty (base (IntegerLiteral_ctor "5" 3 200)).
Proof.
  split; [reflexivity |].
  apply (proj2 (proj2 (proj2 (BraceExpr_type_is_caller_supplied
                                sample_memory 0 20 96 2 true 21 200)))
           (IntegerLiteral_ctor "5" 3 200)).
  - reflexivity.
  - reflexivity.
  - reflexivity.
Defined.

(** C10: every constructor but SequenceExpr's stores the type handle it
    is given as the node's resolved type and every other argument in its
    field, unchanged; it reads no memory and tests nothing, so the decay
    and brace typing rules are not enforced by construction: a
    one-element tuple and a brace without trailing semicolon can be
    built with a type other than their element's. *)
Theorem constructors_store_arguments_verbatim :
  (∀ (V : string) (L ty : Z),
     base (IntegerLiteral_ctor V L ty) = {| Kind := IntegerLiteralKind; Ty := ty |} ∧
     ∃ f, derived (IntegerLiteral_ctor V L ty) = IsIntegerLiteral f ∧
          IntegerLiteral.Val f = V ∧ IntegerLiteral.Loc f = L) ∧
  (∀ (d L ty : Z),
     base (DeclRefExpr_ctor d L ty) = {| Kind := DeclRefExprKind; Ty := ty |} ∧
     ∃ f, derived (DeclRefExpr_ctor d L ty) = IsDeclRefExpr f ∧
          DeclRefExpr.D f = d ∧ DeclRefExpr.Loc f = L) ∧
  (∀ (l s n r ty : Z),
     base (TupleExpr_ctor l s n r ty) = {| Kind := TupleExprKind; Ty := ty |} ∧
     ∃ f, derived (TupleExpr_ctor l s n r ty) = IsTupleExpr f ∧
          TupleExpr.LParenLoc f = l ∧ TupleExpr.SubExprs f = s ∧
          TupleExpr.NumSubExprs f = n ∧ TupleExpr.RParenLoc f = r) ∧
  (∀ (fn arg ty : Z),
     base (ApplyExpr_ctor fn arg ty) = {| Kind := ApplyExprKind; Ty := ty |} ∧
     ∃ f, derived (ApplyExpr_ctor fn arg ty) = IsApplyExpr f ∧
          ApplyExpr.Fn f = fn ∧ ApplyExpr.Arg f = arg) ∧
  (∀ (l els n : Z) (ms : bool) (r ty : Z),
     base (BraceExpr_ctor l els n ms r ty) = {| Kind := BraceExprKind; Ty := ty |} ∧
     ∃ f, derived (BraceExpr_ctor l els n ms r ty) = IsBraceExpr f ∧
          BraceExpr.LBLoc f = l ∧ BraceExpr.Elements f = els ∧
          BraceExpr.NumElements f = n ∧ BraceExpr.MissingSemi f = ms ∧
          BraceExpr.RBLoc f = r) ∧
  (∀ (input ty : Z),
     base (ClosureExpr_ctor input ty) = {| Kind := ClosureExprKind; Ty := ty |} ∧
     ∃ f, derived (ClosureExpr_ctor input ty) = IsClosureExpr f ∧
          ClosureExpr.Input f = input) ∧
  (∀ (lhs fn oploc rhs ty : Z),
     base (BinaryExpr_ctor lhs fn oploc rhs ty) = {| Kind := BinaryExprKind; Ty := ty |} ∧
     ∃ f, derived (BinaryExpr_ctor lhs fn oploc rhs ty) = IsBinaryExpr f ∧
          BinaryExpr.LHS f = lhs ∧ BinaryExpr.Fn f = fn ∧
          BinaryExpr.OpLoc f = oploc ∧ BinaryExpr.RHS f = rhs) ∧
  (∀ (M : Memory) (c : CtorCall),
     class_of_call c ≠ SequenceExprKind →
     is_Some (construct M c) ∧ construct M c = construct empty_memory c) ∧
  (∃ (M : Memory) (t e : Node),
     construct M (NewTupleExpr 10 80 1 11 200) = Some t ∧
     sole_subexpr M t = Some e ∧ Ty (base t) ≠ Ty (base e)) ∧
  (∃ (M : Memory) (b e : Node),
     construct M (NewBraceExpr 20 96 2 true 21 100) = Some b ∧
     trailing_semicolon b = Some false ∧
     last_brace_expr M b = Some e ∧ Ty (base b) ≠ Ty (base e)).
Proof.
  repeat split; try (eexists; repeat split; reflexivity).
  - destruct c; simpl in *; solve [eexists; reflexivity | congruence].
  - destruct c; simpl in *; solve [reflexivity | congruence].
  - exists sample_memory, (TupleExpr_ctor 10 80 1 11 200),
      (IntegerLiteral_ctor "4" 1 100).
    split; [reflexivity | split; [reflexivity | discriminate]].
  - exists sample_memory, (BraceExpr_ctor 20 96 2 true 21 100),
      (IntegerLiteral_ctor "5" 3 200).
    split; [reflexivity |]. split; [reflexivity |].
    split; [reflexivity | discriminate].
Qed.

Lemma constructors_store_arguments_verbatim_witness :
  class_of_call (NewBinaryExpr 16 7 2 32 300) ≠ SequenceExprKind ∧
  is_Some (construct sample_memory (NewBinaryExpr 16 7 2 32 300)) ∧
  construct sample_memory (NewBinaryExpr 16 7 2 32 300)
    = construct empty_memory (NewBinaryExpr 16 7 2 32 300).
Proof.
  split; [discriminate |].
  apply (proj1 (proj2 (proj2 (proj2 (proj2 (proj2 (proj2
           (proj2 constructors_store_arguments_verbatim)))))))
           sample_memory (NewBinaryExpr 16 7 2 32 300)).
  discriminate.
Defined.

(** ** Checked dispatch *)

(** C5: for every node and every one of the eight variants, the variant
    test holds iff the node's kind tag is the variant's tag, and the
    total narrowing returns a present value (the node itself) under
    exactly that condition and absent otherwise. *)
Theorem isVariant_and_tryCast_follow_Kind (T : ExprKind) (n : Node) :
  (isVariant T n = true ↔ Kind (base n) = T) ∧
  (tryCast T n = Some n ↔ Kind (base n) = T) ∧
  (is_Some (tryCast T n) ↔ isVariant T n = true) ∧
  (tryCast T n = None ↔ Kind (base n) ≠ T).
Proof.
  assert (Hv : isVariant T n = true ↔ Kind (base n) = T)
    by apply classof_Kind.
  unfold tryCast. split; [exact Hv |].
  destruct (isVariant T n) eqn:Htest.
  - assert (Hk : Kind (base n) = T) by (by apply Hv).
    repeat split; first [done | by eexists].
  - assert (Hk : Kind (base n) ≠ T) by (intros Hk%Hv; discriminate).
    repeat split; first [done | by intros [? ?]].
Qed.

(** C6: the kind enumeration has exactly eight tags, all distinct and
    none missing; of every node exactly one of the eight variant
    predicates holds, namely that of its kind tag; and a visit with
    handlers for the eight kinds runs that one handler and never falls
    through. *)
Theorem dispatch_is_exhaustive_and_exclusive :
  length all_kinds = 8%nat ∧
  NoDup all_kinds ∧
  (∀ k : ExprKind, k ∈ all_kinds) ∧
  (∀ n : Node,
     matching_variants n = [Kind (base n)] ∧
     (∀ T : ExprKind, isVariant T n = true ↔ T = Kind (base n)) ∧
     (∀ (R : Type) (H : Handlers R),
        visit H n = Some (handler H (Kind (base n)) n))).
Proof.
  split; [reflexivity |]. split; [| split].
  - apply (bool_decide_unpack _). reflexivity.
  - intros k. apply list_elem_of_In. destruct k; simpl; tauto.
  - intros [[k ty] d]. split; [| split].
    + destruct k; reflexivity.
    + intros T. unfold isVariant. rewrite classof_Kind. simpl.
      split; congruence.
    + intros R H. destruct k; reflexivity.
Qed.

(** ** The kind tag *)

(** C7: the kind tag of a node is set by its constructor to the tag of
    the class being built, and every node keeps its tag through any
    sequence of operations: construction of other nodes, assignments to
    [Ty], stores to the arrays and calls of the const members. *)
Theorem Kind_is_set_once_and_invariant :
  (∀ (M : Memory) (c : CtorCall) (n : Node),
     construct M c = Some n →
     Kind (base n) = class_of_call c ∧ dynamic_class n = class_of_call c) ∧
  (∀ (M M' : Memory) (ops : list Op) (p : Z) (n : Node),
     run M ops = Some M' →
     nodes M !! p = Some n →
     ∃ n', nodes M' !! p = Some n' ∧ Kind (base n') = Kind (base n)).
Proof.
  split.
  - apply construct_Kind.
  - intros M M' ops p n. apply run_preserves_Kind.
Qed.

Lemma Kind_is_set_once_and_invariant_witness :
  construct sample_memory (NewIntegerLiteral "4" 1 100)
    = Some (IntegerLiteral_ctor "4" 1 100) ∧
  Kind (base (IntegerLiteral_ctor "4" 1 100)) = IntegerLiteralKind ∧
  is_Some (run sample_memory
             [OpAssignTy 16 300; OpNew 48 (NewSequenceExpr 64 2);
              OpStoreExpr 64 32; OpConstMember 48]) ∧
  ∃ n', nodes (default empty_memory
                 (run sample_memory
                    [OpAssignTy 16 300; OpNew 48 (NewSequenceExpr 64 2);
                     OpStoreExpr 64 32; OpConstMember 48])) !! 16 = Some n' ∧
        Kind (base n') = Kind (base (IntegerLiteral_ctor "4" 1 100)).
Proof.
  split; [reflexivity |]. split; [| split; [by eexists |]].
  - refine (proj1 (proj1 Kind_is_set_once_and_invariant sample_memory
                     (NewIntegerLiteral "4" 1 100) _ _)).
    reflexivity.
  - apply (proj2 Kind_is_set_once_and_invariant sample_memory _
             [OpAssignTy 16 300; OpNew 48 (NewSequenceExpr 64 2);
              OpStoreExpr 64 32; OpConstMember 48]
             16 (IntegerLiteral_ctor "4" 1 100)).
    + reflexivity.
    + reflexivity.
Defined.

(** ** Beyond the constructors: tags, snapshots and composition *)



Lemma arena_fresh_spec (M : Memory) (p : Z) :
  arena_fresh M p = true ↔ p ≠ NULL ∧ nodes M !! p = None.
Proof.
  unfold arena_fresh. rewrite andb_true_iff, negb_true_iff, Z.eqb_neq.
  by rewrite bool_decide_eq_true.
Qed.



(** X2: the type of a SequenceExpr is a copy taken when it is
    constructed.  Assigning the last element's [Ty] afterwards changes
    the element and leaves the SequenceExpr with the old type, so the two
    differ as soon as the new type differs from the old one. *)
Theorem SequenceExpr_type_is_a_snapshot
    (M : Memory) (elements numElements p pn : Z) (en : Node) (ty' : Z) :
  exprCells M (elements + unsigned_sub numElements 1) = Some pn →
  nodes M !! pn = Some en →
  arena_fresh M p = true →
  ∃ (M' : Memory) (s : Node),
    run M [OpNew p (NewSequenceExpr elements numElements); OpAssignTy pn ty']
      = Some M' ∧
    nodes M' !! p = Some s ∧
    Ty (base s) = Ty (base en) ∧
    deref_Ty M' pn = Some ty' ∧
    (ty' ≠ Ty (base en) → deref_Ty M' p ≠ deref_Ty M' pn).
Proof.
  intros Hcell Hen Hfresh.
  pose proof Hfresh as [_ Hnone]%arena_fresh_spec.
  assert (Hne : pn ≠ p) by congruence.
  set (s := {| base := {| Kind := SequenceExprKind; Ty := Ty (base en) |};
               derived := IsSequenceExpr
                 {| SequenceExpr.Elements := elements;
                    SequenceExpr.NumElements := numElements |} |}).
  assert (Hctor : SequenceExpr_ctor M elements numElements = Some s).
  { apply SequenceExpr_ctor_Some. by exists pn, en. }
  eexists. exists s. simpl. rewrite Hfresh, Hctor. simpl.
  rewrite lookup_insert_ne by congruence. rewrite Hen. simpl.
  split; [reflexivity |]. unfold deref_Ty. simpl.
  rewrite lookup_insert_eq.
  rewrite lookup_insert_ne by done. rewrite lookup_insert_eq. simpl.
  repeat split. intros Hty. congruence.
Qed.

Lemma SequenceExpr_type_is_a_snapshot_witness :
  ∃ (M' : Memory) (s : Node),
    run sample_memory [OpNew 48 (NewSequenceExpr 64 2); OpAssignTy 32 300]
      = Some M' ∧
    nodes M' !! 48 = Some s ∧
    Ty (base s) = 200 ∧
    deref_Ty M' 32 = Some 300 ∧
    (300 ≠ 200 → deref_Ty M' 48 ≠ deref_Ty M' 32).
Proof.
  apply (SequenceExpr_type_is_a_snapshot sample_memory 64 2 48 32
           (IntegerLiteral_ctor "5" 3 200) 300).
  - reflexivity.
  - reflexivity.
  - reflexivity.
Defined.

(** X3: the constructor of SequenceExpr reads one array cell, the last,
    and one field, that element's [Ty].  Two memories that agree there
    give the same result; in particular a store to any other cell, of
    any pointer, null included, does not change what it returns. *)
Theorem SequenceExpr_ctor_reads_only_the_last_element
    (M : Memory) (elements numElements : Z) :
  (∀ M' : Memory,
     exprCells M' (elements + unsigned_sub numElements 1)
       = exprCells M (elements + unsigned_sub numElements 1) →
     (∀ p, exprCells M (elements + unsigned_sub numElements 1) = Some p →
           deref_Ty M' p = deref_Ty M p) →
     SequenceExpr_ctor M' elements numElements
       = SequenceExpr_ctor M elements numElements) ∧
  (∀ (a v : Z) (M' : Memory),
     a ≠ elements + unsigned_sub numElements 1 →
     exec M (OpStoreExpr a v) = Some M' →
     SequenceExpr_ctor M' elements numElements
       = SequenceExpr_ctor M elements numElements).
Proof.
  assert (Hagree : ∀ M' : Memory,
     exprCells M' (elements + unsigned_sub numElements 1)
       = exprCells M (elements + unsigned_sub numElements 1) →
     (∀ p, exprCells M (elements + unsigned_sub numElements 1) = Some p →
           deref_Ty M' p = deref_Ty M p) →
     SequenceExpr_ctor M' elements numElements
       = SequenceExpr_ctor M elements numElements).
  { intros M' Hcell Hty. unfold SequenceExpr_ctor. rewrite Hcell.
    destruct (exprCells M _) as [p |] eqn:Hp; [| reflexivity]. simpl.
    by rewrite (Hty p eq_refl). }
  split; [exact Hagree |].
  intros a v M' Hne Hexec. simpl in Hexec. inversion Hexec; subst.
  apply Hagree; simpl.
  - destruct (Z.eqb_spec (elements + unsigned_sub numElements 1) a); congruence.
  - intros p _. reflexivity.
Qed.

Lemma SequenceExpr_ctor_reads_only_the_last_element_witness :
  64 ≠ 64 + unsigned_sub 2 1 ∧
  SequenceExpr_ctor
    (default empty_memory (exec sample_memory (OpStoreExpr 64 NULL))) 64 2
    = SequenceExpr_ctor sample_memory 64 2.
Proof.
  split; [discriminate |].
  apply (proj2 (SequenceExpr_ctor_reads_only_the_last_element sample_memory 64 2)
           64 NULL).
  - discriminate.
  - reflexivity.
Defined.

(** X4: sequence types compose.  Build a SequenceExpr at [p1], store
    its address in the last cell of a second array and build a second
    SequenceExpr at [p2] from that array: the outer node has the type of
    the inner node, which is the type of the inner node's last element. *)
Theorem nested_SequenceExpr_takes_the_innermost_type
    (M : Memory) (els1 n1 els2 n2 p1 p2 pn : Z) (en : Node) :
  exprCells M (els1 + unsigned_sub n1 1) = Some pn →
  nodes M !! pn = Some en →
  arena_fresh M p1 = true →
  arena_fresh M p2 = true →
  p1 ≠ p2 →
  ∃ (M' : Memory) (s1 s2 : Node),
    run M [OpNew p1 (NewSequenceExpr els1 n1);
           OpStoreExpr (els2 + unsigned_sub n2 1) p1;
           OpNew p2 (NewSequenceExpr els2 n2)] = Some M' ∧
    nodes M' !! p1 = Some s1 ∧
    nodes M' !! p2 = Some s2 ∧
    Ty (base s2) = Ty (base s1) ∧
    Ty (base s1) = Ty (base en).
Proof.
  intros Hcell Hen Hf1 Hf2 Hne.
  pose proof Hf1 as [Hnull1 Hnone1]%arena_fresh_spec.
  pose proof Hf2 as [Hnull2 Hnone2]%arena_fresh_spec.
  set (s1 := {| base := {| Kind := SequenceExprKind; Ty := Ty (base en) |};
                derived := IsSequenceExpr
                  {| SequenceExpr.Elements := els1;
                     SequenceExpr.NumElements := n1 |} |}).
  set (s2 := {| base := {| Kind := SequenceExprKind; Ty := Ty (base en) |};
                derived := IsSequenceExpr
                  {| SequenceExpr.Elements := els2;
                     SequenceExpr.NumElements := n2 |} |}).
  assert (Hctor1 : SequenceExpr_ctor M els1 n1 = Some s1).
  { apply SequenceExpr_ctor_Some. by exists pn, en. }
  eexists. exists s1, s2. simpl. rewrite Hf1, Hctor1. simpl.
  assert (Hf2' : arena_fresh
            {| nodes := <[p1 := s1]> (nodes M);
               exprCells := fun b =>
                 if b =? els2 + unsigned_sub n2 1 then Some p1 else exprCells M b;
               unionCells := unionCells M |} p2 = true).
  { apply arena_fresh_spec. split; [done |]. simpl.
    by rewrite lookup_insert_ne. }
  rewrite Hf2'.
  assert (Hctor2 : SequenceExpr_ctor
            {| nodes := <[p1 := s1]> (nodes M);
               exprCells := fun b =>
                 if b =? els2 + unsigned_sub n2 1 then Some p1 else exprCells M b;
               unionCells := unionCells M |} els2 n2 = Some s2).
  { apply SequenceExpr_ctor_Some. exists p1, s1. simpl.
    rewrite Z.eqb_refl, lookup_insert_eq. done. }
  rewrite Hctor2. simpl. split; [reflexivity |]. simpl.
  rewrite lookup_insert_ne by done. rewrite !lookup_insert_eq. done.
Qed.

Lemma nested_SequenceExpr_takes_the_innermost_type_witness :
  ∃ (M' : Memory) (s1 s2 : Node),
    run sample_memory
      [OpNew 48 (NewSequenceExpr 64 2); OpStoreExpr (112 + unsigned_sub 1 1) 48;
       OpNew 56 (NewSequenceExpr 112 1)] = Some M' ∧
    nodes M' !! 48 = Some s1 ∧
    nodes M' !! 56 = Some s2 ∧
    Ty (base s2) = Ty (base s1) ∧
    Ty (base s1) = Ty (base (IntegerLiteral_ctor "5" 3 200)).
Proof.
  apply (nested_SequenceExpr_takes_the_innermost_type sample_memory
           64 2 112 1 48 56 32 (IntegerLiteral_ctor "5" 3 200)).
  - reflexivity.
  - reflexivity.
  - reflexivity.
  - reflexivity.
  - discriminate.
Defined.

(** X5: the enumerators are the consecutive integers 0 to 7 in
    declaration order: the value of a tag is its position in the
    enumeration and the position gives the tag back, every integer from
    0 to 7 is the value of a tag, and [==] on two tags holds exactly when
    they are the same tag. *)
Theorem enumerators_are_consecutive_positions :
  (∀ k : ExprKind, 0 <= enumerator k < 8 ∧ kind_at (enumerator k) = Some k) ∧
  (∀ (z : Z) (k : ExprKind), kind_at z = Some k → enumerator k = z) ∧
  (∀ z : Z, is_Some (kind_at z) ↔ 0 <= z < 8) ∧
  (∀ a b : ExprKind, kind_eqb a b = true ↔ a = b).
Proof.
  assert (Hback : ∀ (z : Z) (k : ExprKind), kind_at z = Some k → enumerator k = z).
  { intros z k. unfold kind_at. destruct (Z.ltb_spec z 0) as [| Hz]; [discriminate |].
    intros Hk.
    assert (Hlt : (Z.to_nat z < 8)%nat).
    { apply lookup_lt_Some in Hk. exact Hk. }
    assert (Hcases : z = 0 ∨ z = 1 ∨ z = 2 ∨ z = 3 ∨ z = 4 ∨ z = 5 ∨ z = 6 ∨ z = 7)
      by lia.
    destruct Hcases as [-> | [-> | [-> | [-> | [-> | [-> | [-> | ->]]]]]]];
      simpl in Hk; inversion Hk; reflexivity. }
  split; [| split; [exact Hback | split]].
  - intros k. destruct k; simpl; split; first [lia | reflexivity].
  - intros z. split.
    + intros [k Hk]. pose proof (Hback z k Hk) as <-. destruct k; simpl; lia.
    + intros Hz.
      assert (Hcases : z = 0 ∨ z = 1 ∨ z = 2 ∨ z = 3 ∨ z = 4 ∨ z = 5 ∨ z = 6 ∨ z = 7)
        by lia.
      destruct Hcases as [-> | [-> | [-> | [-> | [-> | [-> | [-> | ->]]]]]]];
        by eexists.
  - intros a b. unfold kind_eqb. rewrite Z.eqb_eq. split; [| by intros ->].
    destruct a, b; simpl; intros H; first [reflexivity | discriminate H].
Qed.

Lemma enumerators_are_consecutive_positions_witness :
  kind_at 4 = Some SequenceExprKind ∧ enumerator SequenceExprKind = 4.
Proof.
  split; [reflexivity |].
  apply (proj1 (proj2 enumerators_are_consecutive_positions) 4 SequenceExprKind).
  reflexivity.
Defined.

(** X6: a TupleExpr holds its sub-expression array by address, not by
    copy.  A one-element tuple built with its element's type decays as
    documented, but a later store to [SubExprs[0]] replaces the element
    the tuple refers to while the tuple keeps the type it was built
    with. *)
Theorem TupleExpr_shares_its_subexpression_array
    (M : Memory) (l s r p q : Z) (e e' : Node) :
  exprCells M (s + 0) = Some p →
  nodes M !! p = Some e →
  nodes M !! q = Some e' →
  sole_subexpr M (TupleExpr_ctor l s 1 r (Ty (base e))) = Some e ∧
  Ty (base (TupleExpr_ctor l s 1 r (Ty (base e)))) = Ty (base e) ∧
  ∃ M' : Memory,
    exec M (OpStoreExpr (s + 0) q) = Some M' ∧
    sole_subexpr M' (TupleExpr_ctor l s 1 r (Ty (base e))) = Some e' ∧
    (Ty (base e') ≠ Ty (base e) →
     Ty (base (TupleExpr_ctor l s 1 r (Ty (base e)))) ≠ Ty (base e')).
Proof.
  intros Hcell Hp Hq. split; [| split; [reflexivity |]].
  - unfold sole_subexpr. simpl. rewrite Hcell. simpl. exact Hp.
  - eexists. split; [reflexivity |]. split.
    + unfold sole_subexpr. simpl. rewrite Z.eqb_refl. simpl. exact Hq.
    + simpl. congruence.
Qed.

Lemma TupleExpr_shares_its_subexpression_array_witness :
  sole_subexpr sample_memory (TupleExpr_ctor 10 80 1 11 100)
    = Some (IntegerLiteral_ctor "4" 1 100) ∧
  Ty (base (TupleExpr_ctor 10 80 1 11 100)) = 100 ∧
  ∃ M' : Memory,
    exec sample_memory (OpStoreExpr (80 + 0) 32) = Some M' ∧
    sole_subexpr M' (TupleExpr_ctor 10 80 1 11 100)
      = Some (IntegerLiteral_ctor "5" 3 200) ∧
    (200 ≠ 100 → Ty (base (TupleExpr_ctor 10 80 1 11 100)) ≠ 200).
Proof.
  apply (TupleExpr_shares_its_subexpression_array sample_memory 10 80 11 16 32
           (IntegerLiteral_ctor "4" 1 100) (IntegerLiteral_ctor "5" 3 200)).
  - reflexivity.
  - reflexivity.
  - reflexivity.
Defined.
